(** * mesh: running a shell script under a deadline and parsing its output

    A shallow embedding of [pkg/mesh/mesh.go].  Go strings are byte
    sequences and are modelled by [string]; Go's [int] and
    [time.Duration] are modelled by [Z]; [map[string]string] is a
    [gmap string string] together with the order in which a [range]
    loop happens to visit it; the operating system (path lookup and the
    spawned shell) is an explicit interface. *)

From Stdlib Require Import ZArith Ascii.
From stdpp Require Import gmap strings list fin_maps pretty.

Local Open Scope Z_scope.

(** ** The parts of Go's [strings] package that the code calls *)

Module strings.

(** The white space of the ASCII table [asciiSpace] of the [strings]
    package: tab, line feed, vertical tab, form feed, carriage return
    and space.  The model works on bytes, so the multi-byte code
    points that [unicode.IsSpace] also accepts are ordinary bytes
    here. *)
Definition isSpace (c : ascii) : bool :=
  let n := nat_of_ascii c in
  (Nat.leb 9 n && Nat.leb n 13) || Nat.eqb n 32.

(** [strings.Cut] for a one-byte separator: the text before and after
    the first occurrence of [sep], if there is one. *)
Fixpoint Cut (sep : ascii) (s : string) : option (string * string) :=
  match s with
  | EmptyString => None
  | String c r =>
      if Ascii.eqb c sep then Some (EmptyString, r)
      else match Cut sep r with
           | Some (a, b) => Some (String c a, b)
           | None => None
           end
  end.

(** [strings.Count] for a one-byte separator. *)
Fixpoint Count (sep : ascii) (s : string) : nat :=
  match s with
  | EmptyString => O
  | String c r => if Ascii.eqb c sep then S (Count sep r) else Count sep r
  end.

(** The loop of [genSplit]: cut at the separator at most [cuts] times
    ([cuts] is [n-1] in the Go code), the rest of the text being the
    last element. *)
Fixpoint genSplit (sep : ascii) (cuts : nat) (s : string) : list string :=
  match cuts with
  | O => [s]
  | S c =>
      match Cut sep s with
      | None => [s]
      | Some (a, b) => a :: genSplit sep c b
      end
  end.

(** [strings.Split(s, sep)]: [genSplit] with [n = Count(s, sep) + 1]. *)
Definition Split (s : string) (sep : ascii) : list string :=
  genSplit sep (Count sep s) s.

(** [strings.SplitN(s, sep, n)] for [n > 0]. *)
Definition SplitN (s : string) (sep : ascii) (n : nat) : list string :=
  match n with
  | O => []
  | S c => genSplit sep c s
  end.

(** [strings.Join]. *)
Fixpoint Join (l : list string) (sep : string) : string :=
  match l with
  | [] => EmptyString
  | [x] => x
  | x :: r => x +:+ sep +:+ Join r sep
  end.

Fixpoint TrimLeft (s : string) : string :=
  match s with
  | EmptyString => EmptyString
  | String c r => if isSpace c then TrimLeft r else s
  end.

Fixpoint TrimRight (s : string) : string :=
  match s with
  | EmptyString => EmptyString
  | String c r =>
      match TrimRight r with
      | EmptyString => if isSpace c then EmptyString else String c EmptyString
      | r' => String c r'
      end
  end.

(** [strings.TrimSpace]: drop the white space at both ends. *)
Definition TrimSpace (s : string) : string := TrimRight (TrimLeft s).

(** The scan of [strings.Fields]: [tok] is the token being read, if
    any; a white-space byte closes it. *)
Fixpoint fieldsFrom (tok : option string) (s : string) : list string :=
  match s with
  | EmptyString =>
      match tok with Some w => [w] | None => [] end
  | String c r =>
      if isSpace c then
        match tok with
        | Some w => w :: fieldsFrom None r
        | None => fieldsFrom None r
        end
      else
        fieldsFrom (Some (default EmptyString tok +:+ String c EmptyString)) r
  end.

(** [strings.Fields]: the maximal runs of bytes that are not white
    space. *)
Definition Fields (s : string) : list string := fieldsFrom None s.

(** [strings.ContainsRune] for a one-byte rune. *)
Definition ContainsRune (s : string) (c : ascii) : bool :=
  match Cut c s with
  | Some _ => true
  | None => false
  end.

(** [strings.Contains], as a proposition. *)
Definition Contains (s sub : string) : Prop :=
  ∃ pre post, s = pre +:+ sub +:+ post.

End strings.

(** ** The formatting of durations, [time.Duration.String] *)

Module time.

Definition Nanosecond : Z := 1.
Definition Microsecond : Z := 1000 * Nanosecond.
Definition Millisecond : Z := 1000 * Microsecond.
Definition Second : Z := 1000 * Millisecond.

(** [fmtInt]: the decimal digits of [v]. *)
Definition fmtInt (v : N) : string := pretty v.

(** [fmtFrac]: the fraction of [v / 10^prec] written in front of
    [buf], without trailing zeros and without the point when the
    fraction is zero; also returns [v / 10^prec]. *)
Fixpoint fmtFrac (prec : nat) (print : bool) (v : N) (buf : string)
  : string * N :=
  match prec with
  | O => (if print then "." +:+ buf else buf, v)
  | S p =>
      let digit := (v mod 10)%N in
      let print := print || negb (N.eqb digit 0) in
      fmtFrac p print (v / 10)%N (if print then pretty digit +:+ buf else buf)
  end.

(** [Duration.String]: [72h3m0.5s], [1m0s], [1.5s], [100ms], [0s]. *)
Definition String (d : Z) : string :=
  let u := Z.to_N (Z.abs d) in
  let body :=
    if (u <? Z.to_N Second)%N then
      if (u =? 0)%N then "0s"
      else
        let '(prec, unit) :=
          if (u <? Z.to_N Microsecond)%N then (0%nat, "ns")
          else if (u <? Z.to_N Millisecond)%N
               then (3%nat, String.String "194" (String.String "181" "s"))
               else (6%nat, "ms") in
        let '(frac, u) := fmtFrac prec false u unit in
        fmtInt u +:+ frac
    else
      let '(frac, u) := fmtFrac 9 false u "s" in
      let s := fmtInt (u mod 60) +:+ frac in
      let u := (u / 60)%N in
      if (0 <? u)%N then
        let s := fmtInt (u mod 60) +:+ "m" +:+ s in
        let u := (u / 60)%N in
        if (0 <? u)%N then fmtInt u +:+ "h" +:+ s else s
      else s in
  if d <? 0 then "-" +:+ body else body.

End time.

(** ** Run-time faults *)

Inductive panic : Type :=
  | SliceBoundsOutOfRange (n : Z)
  | MakeSliceLenOutOfRange.

Inductive result (A : Type) : Type :=
  | Ok (a : A)
  | Panic (p : panic).
Arguments Ok {A} a.
Arguments Panic {A} p.

Global Instance result_ret : MRet result := λ A a, Ok a.
Global Instance result_bind : MBind result := λ A B f r,
  match r with
  | Ok a => f a
  | Panic p => Panic p
  end.

(** [make([]string, n)]: [n] empty strings; a negative length faults.
    The model puts no bound on the size of an allocation. *)
Definition make_strings (n : Z) : result (list string) :=
  if n <? 0 then Panic MakeSliceLenOutOfRange
  else Ok (replicate (Z.to_nat n) EmptyString).

(** The slice expression [s[:n]].  Go checks [0 <= n <= cap(s)]; the
    model has no spare capacity, so the bound is the length. *)
Definition slice_to {A} (s : list A) (n : Z) : result (list A) :=
  if (n <? 0) || (Z.of_nat (length s) <? n) then Panic (SliceBoundsOutOfRange n)
  else Ok (take (Z.to_nat n) s).

(** ** The data of the package *)

Record Config : Type := mkConfig {
  Cmd : string;
  Shell : string;
  Timeout : Z;          (* time.Duration, in nanoseconds *)
  Env : list string
}.

(** [Ts] holds a pointer to its [Config]; the model stores the
    configuration in the handle, so two handles made from one
    [*Config] do not share it here. *)
Record Ts : Type := mkTs {
  Cfg : Config;
  stdout : string;
  stderr : string;
  exitCode : Z
}.

Definition set_Env (env : list string) (t : Ts) : Ts :=
  mkTs (mkConfig (Cmd (Cfg t)) (Shell (Cfg t)) (Timeout (Cfg t)) env)
       (stdout t) (stderr t) (exitCode t).
Definition set_stdout (s : string) (t : Ts) : Ts :=
  mkTs (Cfg t) s (stderr t) (exitCode t).
Definition set_stderr (s : string) (t : Ts) : Ts :=
  mkTs (Cfg t) (stdout t) s (exitCode t).
Definition set_exitCode (c : Z) (t : Ts) : Ts :=
  mkTs (Cfg t) (stdout t) (stderr t) c.

(** ** The operating system, as the package sees it *)

(** What [exec.CommandContext] is given before [Run]. *)
Record Command : Type := mkCommand {
  cmd_Path : string;
  cmd_Env : list string;
  cmd_Stdin : string;
  cmd_Timeout : Z
}.

(** What can be observed once [cmd.Run()] has returned. *)
Record Outcome : Type := mkOutcome {
  run_err : option string;       (* err.Error() when err != nil *)
  ProcessState : option Z;       (* ProcessState.ExitCode(), nil as None *)
  out_bytes : string;            (* the buffer behind cmd.Stdout *)
  stderr_bytes : string;         (* the buffer behind cmd.Stderr *)
  DeadlineExceeded : bool        (* ctx.Err() == context.DeadlineExceeded *)
}.

(** The processes started so far, the latest first. *)
Definition World : Type := list Command.

Class OS : Type := {
  Environ : list string;
  LookPath : string → bool;
  Run : World → Command → Outcome
}.

(** ** Construction *)

Definition NewConfig `{OS} : Config :=
  mkConfig "" "bash" (60 * time.Second) Environ.

(** [New(cmdStr, config...)]; a missing or nil configuration is [None]. *)
Definition New `{OS} (cmdStr : string) (config : option Config) : Ts :=
  let cfg := match config with Some c => c | None => NewConfig end in
  let cfg :=
    if decide (Cmd cfg = "")
    then mkConfig cmdStr (Shell cfg) (Timeout cfg) (Env cfg)
    else cfg in
  mkTs cfg "" "" 0.

(** ** The environment *)

(** [fmt.Sprintf("%s=%s", k, v)]. *)
Definition Sprintf_kv (kv : string * string) : string :=
  kv.1 +:+ "=" +:+ kv.2.

(** [range] is a possible order of iteration over the map [m]. *)
Definition ranges (m : gmap string string) (range : list (string * string))
  : Prop :=
  range ≡ₚ map_to_list m.

(** [SetEnv(envVars)], with the order [range] in which the second loop
    visits [envVars].  (The map [existingKeys] of the source is written
    and never read.) *)
Definition SetEnv (range : list (string * string))
    (envVars : gmap string string) (t : Ts) : Ts :=
  let newEnv :=
    foldl (λ newEnv kv,
             match strings.SplitN kv "=" 2 with
             | [k; _] =>
                 match envVars !! k with
                 | Some _ => newEnv
                 | None => newEnv ++ [kv]
                 end
             | _ => newEnv
             end) [] (Env (Cfg t)) in
  let newEnv := foldl (λ newEnv kv, newEnv ++ [Sprintf_kv kv]) newEnv range in
  set_Env newEnv t.

Definition GetEnv (t : Ts) : list string := Env (Cfg t).

(** The KEY portion of an entry: the text before its first [=]. *)
Definition entry_key (kv : string) : option string :=
  match strings.SplitN kv "=" 2 with
  | [k; _] => Some k
  | _ => None
  end.

(** The entries of the old list that the first loop of [SetEnv] copies:
    those with a [=] whose key is not a key of the map. *)
Definition retained (envVars : gmap string string) (kv : string) : Prop :=
  match entry_key kv with
  | Some k => envVars !! k = None
  | None => False
  end.

Global Instance retained_dec envVars kv : Decision (retained envVars kv).
Proof. unfold retained. destruct (entry_key kv); apply _. Defined.

(** The keys of the well-formed entries of a list, in order. *)
Definition env_keys (env : list string) : list string := omap entry_key env.

(** ** Accessors *)

Definition Stdout (t : Ts) : string := stdout t.
Definition Stderr (t : Ts) : string := stderr t.
Definition ExitCode (t : Ts) : Z := exitCode t.

(** ** Parsing the output *)

Definition LF : ascii := "010".

Definition Lines (t : Ts) : list string :=
  let trimSpace := Stdout t in
  if decide (trimSpace = "") then [] else strings.Split trimSpace LF.

(** The body of the loop of [Fields], for one line. *)
Definition Fields_line (expectedLen : Z) (line : string) : result (list string) :=
  let fields := strings.Fields line in
  if Z.of_nat (length fields) <? expectedLen then
    padding ← make_strings (expectedLen - Z.of_nat (length fields));
    Ok (fields ++ padding)
  else if expectedLen <? Z.of_nat (length fields) then
    slice_to fields expectedLen
  else Ok fields.

Definition Fields (t : Ts) (expectedLen : Z) : result (list (list string)) :=
  let lines := Lines t in
  foldl (λ acc line,
           result ← acc;
           fields ← Fields_line expectedLen line;
           Ok (result ++ [fields]))
        (Ok []) lines.

Definition ToMap (t : Ts) (expectedLen : Z) : result (gmap string (list string)) :=
  fields ← Fields t expectedLen;
  Ok (foldl (λ (data : gmap string (list string)) field,
               match field with
               | key :: rest => <[key := rest]> data
               | [] => data
               end) ∅ fields).

(** What a row of [Fields] is expected to be: the first [n] tokens of
    the line, then empty strings up to [n] entries. *)
Definition fit (n : nat) (tokens : list string) : list string :=
  take n tokens ++ replicate (n - length tokens) "".

(** ** Execution *)

Definition timed_out_message (timeout : Z) : string :=
  "Error: Command execution timed out after " +:+ time.String timeout +:+ ".".

Definition Exec `{OS} (t : Ts) (w : World) : Ts * World :=
  if bool_decide (exitCode t ≠ 0) && bool_decide (exitCode t ≠ -1) then (t, w)
  else
    let shell := if LookPath (Shell (Cfg t)) then Shell (Cfg t) else "sh" in
    let cmd := mkCommand shell (Env (Cfg t)) (Cmd (Cfg t)) (Timeout (Cfg t)) in
    let r := Run w cmd in
    let t := match run_err r with
             | Some e => set_stderr e t
             | None => t
             end in
    let t := match ProcessState r with
             | Some c => set_exitCode c t
             | None => set_exitCode (-1) t
             end in
    let t := set_stdout (strings.TrimSpace (out_bytes r)) t in
    let t := set_stderr (strings.TrimSpace (stderr_bytes r)) t in
    let t := if DeadlineExceeded r
             then set_exitCode (-1)
                    (set_stderr (timed_out_message (Timeout (Cfg t))) t)
             else t in
    (t, cmd :: w).

(** The command that [Exec] hands to the operating system. *)
Definition Exec_command `{OS} (t : Ts) : Command :=
  mkCommand (if LookPath (Shell (Cfg t)) then Shell (Cfg t) else "sh")
            (Env (Cfg t)) (Cmd (Cfg t)) (Timeout (Cfg t)).

(** The handles a client of the package can hold: made by [New], then
    changed by [SetEnv] and [Exec] only. *)
Inductive reachable `{OS} : Ts → World → Prop :=
  | reach_New cmdStr config :
      reachable (New cmdStr config) []
  | reach_SetEnv t w envVars range :
      reachable t w → ranges envVars range →
      reachable (SetEnv range envVars t) w
  | reach_Exec t w :
      reachable t w → reachable (Exec t w).1 (Exec t w).2.

(** ** A scripted operating system, for running the model *)

(** Only [bash] is installed; every process behaves as [o] says. *)
Definition scripted (o : Outcome) : OS :=
  {| Environ := ["PATH=/usr/bin"; "HOME=/root"];
     LookPath := λ file, bool_decide (file = "bash");
     Run := λ _ _, o |}.

Definition nl : string := String.String LF "".

(** The shell exits with status 3 and writes nothing. *)
Definition exit_status_3 : Outcome :=
  mkOutcome (Some "exit status 3") (Some 3) "" "" false.

(** The shell is killed at the deadline after some output. *)
Definition killed_at_deadline : Outcome :=
  mkOutcome (Some "signal: killed") (Some (-1))
            ("partial" +:+ nl) ("warning" +:+ nl) true.

(** The shell prints three lines, the second one empty and the third
    one indented, and exits with status 0. *)
Definition three_lines : Outcome :=
  mkOutcome None (Some 0)
            ("a" +:+ nl +:+ nl +:+ "  b" +:+ nl) "" false.

(** [New(cmdStr).Exec()] on a fresh machine where every shell behaves
    as [o] says. *)
Definition run_once (o : Outcome) (cmdStr : string) : Ts * World :=
  @Exec (scripted o) (@New (scripted o) cmdStr None) [].

(** A handle whose [Stdout] is [stdout], as a run of [printf] leaves it. *)
Definition handle_printing (stdout : string) : Ts :=
  mkTs (mkConfig "printf" "bash" (60 * time.Second) []) stdout "" 0.

(** The handle [New("env", &Config{Shell: "bash", Timeout: 60s, Env: env})]. *)
Definition handle_with (env : list string) : Ts :=
  mkTs (mkConfig "env" "bash" (60 * time.Second) env) "" "" 0.

(** ** Diagnostics *)

(** The values that [Show] puts into its [map[string]any]. *)
Inductive any : Type :=
  | any_string (s : string)
  | any_int (n : Z)
  | any_strings (l : list string).

Definition Show (t : Ts) : gmap string any :=
  {[ "stdout" := any_string (stdout t);
     "stderr" := any_string (stderr t);
     "exitCode" := any_int (exitCode t);
     "envVars" := any_strings (Env (Cfg t));
     "cmdStr" := any_string (Cmd (Cfg t)) ]}.

(** ** Sequences of calls on one handle *)

Inductive call : Type :=
  | call_Exec
  | call_SetEnv (range : list (string * string)) (envVars : gmap string string).

Definition do_call `{OS} (c : call) (s : Ts * World) : Ts * World :=
  match c with
  | call_Exec => Exec s.1 s.2
  | call_SetEnv range envVars => (SetEnv range envVars s.1, s.2)
  end.

Definition do_calls `{OS} (cs : list call) (s : Ts * World) : Ts * World :=
  foldl (λ s c, do_call c s) s cs.

(** ** Predicates on texts *)

(** Every byte of [s] satisfies [P]. *)
Fixpoint all_bytes (P : ascii → bool) (s : string) : bool :=
  match s with
  | EmptyString => true
  | String c r => P c && all_bytes P r
  end.

(** A token: not empty and free of white space. *)
Definition is_token (s : string) : Prop :=
  s ≠ "" ∧ all_bytes (λ c, negb (strings.isSpace c)) s = true.


(** ** Pointers: shared configurations and environment slices *)

(** [New] keeps the [*Config] it is given, [SetEnv] stores a new slice
    in that object, [GetEnv] copies the slice and [Show] hands it out.
    To see who shares what, configurations and the backing arrays of
    slices live in a store and are named by locations.  A slice is
    named by its backing array (the functions here never reslice), and
    a handle is its location of the configuration together with its
    three result fields. *)
Definition loc : Type := nat.

Record ConfigObj : Type := mkConfigObj {
  oCmd : string;
  oShell : string;
  oTimeout : Z;
  oEnv : loc
}.

Record Store : Type := mkStore {
  configs : gmap loc ConfigObj;
  arrays : gmap loc (list string)
}.

Record TsObj : Type := mkTsObj {
  pCfg : loc;
  pstdout : string;
  pstderr : string;
  pexitCode : Z
}.

(** A new backing array holding [l]. *)
Definition alloc (l : list string) (st : Store) : loc * Store :=
  let a := fresh (dom (arrays st)) in
  (a, mkStore (configs st) (<[a := l]> (arrays st))).

(** [NewConfig()]: a new object; [os.Environ()] returns a new slice. *)
Definition NewConfigP `{OS} (st : Store) : loc * Store :=
  let '(a, st) := alloc Environ st in
  let p := fresh (dom (configs st)) in
  (p, mkStore (<[p := mkConfigObj "" "bash" (60 * time.Second) a]> (configs st))
              (arrays st)).

(** [New(cmdStr, config...)]: the assignment [cfg.Cmd = cmdStr] writes
    into the object the caller passed.  (A location without an object
    cannot occur in Go; the model answers [None].) *)
Definition NewP `{OS} (cmdStr : string) (config : option loc) (st : Store)
  : option (TsObj * Store) :=
  let '(p, st) := match config with
                  | Some p => (p, st)
                  | None => NewConfigP st
                  end in
  c ← configs st !! p;
  let st :=
    if decide (oCmd c = "")
    then mkStore (<[p := mkConfigObj cmdStr (oShell c) (oTimeout c) (oEnv c)]>
                    (configs st)) (arrays st)
    else st in
  Some (mkTsObj p "" "" 0, st).

(** The handle as the functions of the package see it. *)
Definition view (st : Store) (h : TsObj) : option Ts :=
  c ← configs st !! pCfg h;
  env ← arrays st !! oEnv c;
  Some (mkTs (mkConfig (oCmd c) (oShell c) (oTimeout c) env)
             (pstdout h) (pstderr h) (pexitCode h)).

(** [SetEnv]: [newEnv] is a new array ([make]), stored in the shared
    configuration object ([t.Cfg.Env = newEnv]). *)
Definition SetEnvP (range : list (string * string))
    (envVars : gmap string string) (h : TsObj) (st : Store)
  : option (TsObj * Store) :=
  t ← view st h;
  c ← configs st !! pCfg h;
  let '(a, st) := alloc (Env (Cfg (SetEnv range envVars t))) st in
  Some (h, mkStore (<[pCfg h := mkConfigObj (oCmd c) (oShell c) (oTimeout c) a]>
                      (configs st)) (arrays st)).

(** [GetEnv]: [make] and [copy]. *)
Definition GetEnvP (h : TsObj) (st : Store) : option (loc * Store) :=
  t ← view st h;
  Some (alloc (GetEnv t) st).

(** The slice that [Show] stores under ["envVars"]: [t.Cfg.Env] itself. *)
Definition Show_envVars (h : TsObj) (st : Store) : option loc :=
  c ← configs st !! pCfg h;
  Some (oEnv c).

(** The assignment [s[i] = x] through a slice; out of range it faults
    ([None]). *)
Definition store_index (a : loc) (i : nat) (x : string) (st : Store)
  : option Store :=
  l ← arrays st !! a;
  if decide (i < length l)%nat
  then Some (mkStore (configs st) (<[a := <[i := x]> l]> (arrays st)))
  else None.

(** The environment that a handle has in a store. *)
Definition env_of (st : Store) (h : TsObj) : option (list string) :=
  GetEnv <$> view st h.

(** A store with one configuration object, at location 0, whose
    environment is [env]. *)
Definition store_with (cmd : string) (env : list string) : Store :=
  mkStore {[ 0%nat := mkConfigObj cmd "bash" (60 * time.Second) 0%nat ]}
          {[ 0%nat := env ]}.

(** * Properties *)

(** ** The model at work *)

Example Duration_ex :
  time.String (60 * time.Second) = "1m0s" ∧
  time.String 1500000000 = "1.5s" ∧
  time.String 100000000 = "100ms" ∧
  time.String 0 = "0s" ∧
  time.String (2 * 3600 * time.Second + 5) = "2h0m0.000000005s".
Proof. repeat split; vm_compute; reflexivity. Qed.

Example Split_ex : strings.Split ("a 1" +:+ nl +:+ "b 2") LF = ["a 1"; "b 2"].
Proof. reflexivity. Qed.

Example Fields_ex : strings.Fields "  a   bc d " = ["a"; "bc"; "d"].
Proof. reflexivity. Qed.

Example TrimSpace_ex : strings.TrimSpace ("  a  b" +:+ nl) = "a  b".
Proof. reflexivity. Qed.

Example SplitN_ex : strings.SplitN "A=1=2" "=" 2 = ["A"; "1=2"].
Proof. reflexivity. Qed.

Example handle_with_New `{OS} env :
  handle_with env = New "env" (Some (mkConfig "" "bash" (60 * time.Second) env)).
Proof. reflexivity. Qed.

Example run_once_ok :
  run_once three_lines "printf"
  = (mkTs (mkConfig "printf" "bash" (60 * time.Second)
                    ["PATH=/usr/bin"; "HOME=/root"])
          ("a" +:+ nl +:+ nl +:+ "  b") "" 0,
     [mkCommand "bash" ["PATH=/usr/bin"; "HOME=/root"] "printf"
                (60 * time.Second)]).
Proof. reflexivity. Qed.

(** ** Strings *)

Local Arguments String.append !_ _ /.

Section string_facts.
Implicit Types (s k v : string) (c sep : ascii).

Lemma Cut_Some sep s a b :
  strings.Cut sep s = Some (a, b) →
  s = a +:+ String sep b ∧ strings.Cut sep a = None.
Proof.
  revert a b. induction s as [|c s IH]; intros a b; simpl; [done|].
  destruct (Ascii.eqb_spec c sep) as [->|Hne].
  - intros [= <- <-]. done.
  - destruct (strings.Cut sep s) as [[a' b']|] eqn:E; [|done].
    intros [= <- <-]. destruct (IH a' b' eq_refl) as [-> Ha'].
    split; [done|]. simpl.
    destruct (Ascii.eqb_spec c sep); [done|]. by rewrite Ha'.
Qed.

Lemma Cut_append sep a b :
  strings.Cut sep a = None →
  strings.Cut sep (a +:+ String sep b) = Some (a, b).
Proof.
  induction a as [|c a IH]; simpl.
  - by rewrite Ascii.eqb_refl.
  - destruct (Ascii.eqb c sep); [done|].
    destruct (strings.Cut sep a) as [[]|]; [done|]. intros _. by rewrite IH.
Qed.

Lemma ContainsRune_false s c :
  strings.ContainsRune s c = false ↔ strings.Cut c s = None.
Proof. unfold strings.ContainsRune. by destruct (strings.Cut c s). Qed.

(** The key of an entry is the text before its first [=]. *)
Lemma entry_key_Some kv k :
  entry_key kv = Some k ↔
  ∃ v, kv = k +:+ "=" +:+ v ∧ strings.ContainsRune k "=" = false.
Proof.
  unfold entry_key, strings.SplitN, strings.genSplit. split.
  - destruct (strings.Cut "=" kv) as [[a b]|] eqn:E; [|done].
    intros [= <-]. apply Cut_Some in E as [-> Ha].
    exists b. by rewrite ContainsRune_false.
  - intros (v & -> & Hk). apply ContainsRune_false in Hk.
    change (k +:+ "=" +:+ v) with (k +:+ String "=" v).
    by rewrite Cut_append.
Qed.


Lemma entry_key_Sprintf k v :
  strings.ContainsRune k "=" = false → entry_key (Sprintf_kv (k, v)) = Some k.
Proof. intros Hk. apply entry_key_Some. by exists v. Qed.




End string_facts.

(** ** The environment *)

Section SetEnv_facts.
Implicit Types (t : Ts) (envVars : gmap string string)
  (range : list (string * string)) (env : list string).

Lemma SetEnv_copy_step envVars kv newEnv :
  match strings.SplitN kv "=" 2 with
  | [k; _] =>
      match envVars !! k with
      | Some _ => newEnv
      | None => newEnv ++ [kv]
      end
  | _ => newEnv
  end
  = if decide (retained envVars kv) then newEnv ++ [kv] else newEnv.
Proof.
  destruct (decide (retained envVars kv)) as [Hkv|Hkv];
    unfold retained, entry_key in Hkv;
    destruct (strings.SplitN kv "=" 2) as [|k [|x [|y l]]]; try done;
    by destruct (envVars !! k).
Qed.

Lemma SetEnv_copy_loop envVars env newEnv :
  foldl (λ newEnv kv,
           match strings.SplitN kv "=" 2 with
           | [k; _] =>
               match envVars !! k with
               | Some _ => newEnv
               | None => newEnv ++ [kv]
               end
           | _ => newEnv
           end) newEnv env
  = newEnv ++ filter (retained envVars) env.
Proof.
  revert newEnv. induction env as [|kv env IH]; intros newEnv.
  { by rewrite app_nil_r. }
  cbn [foldl]. rewrite IH, SetEnv_copy_step, filter_cons.
  destruct (decide (retained envVars kv)); [|done]. by rewrite <- app_assoc.
Qed.

Lemma SetEnv_append_loop range newEnv :
  foldl (λ newEnv kv, newEnv ++ [Sprintf_kv kv]) newEnv range
  = newEnv ++ (Sprintf_kv <$> range).
Proof.
  revert newEnv. induction range as [|kv range IH]; intros newEnv; simpl.
  { by rewrite app_nil_r. }
  by rewrite IH, <- app_assoc.
Qed.

Lemma GetEnv_SetEnv range envVars t :
  GetEnv (SetEnv range envVars t)
  = filter (retained envVars) (GetEnv t) ++ (Sprintf_kv <$> range).
Proof.
  unfold SetEnv, GetEnv; simpl.
  by rewrite SetEnv_copy_loop, SetEnv_append_loop.
Qed.

(** [SetEnv] touches nothing but the environment. *)
Lemma SetEnv_frame range envVars t :
  let t' := SetEnv range envVars t in
  stdout t' = stdout t ∧ stderr t' = stderr t ∧ exitCode t' = exitCode t ∧
  Cmd (Cfg t') = Cmd (Cfg t) ∧ Shell (Cfg t') = Shell (Cfg t) ∧
  Timeout (Cfg t') = Timeout (Cfg t).
Proof. done. Qed.

Lemma ranges_exists envVars : ∃ range, ranges envVars range.
Proof. exists (map_to_list envVars). unfold ranges. reflexivity. Qed.

Lemma ranges_lookup envVars range k v :
  ranges envVars range → (k, v) ∈ range ↔ envVars !! k = Some v.
Proof.
  unfold ranges. intros Hr. rewrite Hr. apply elem_of_map_to_list.
Qed.

Lemma ranges_NoDup_keys envVars range :
  ranges envVars range → NoDup range.*1.
Proof.
  unfold ranges. intros Hr. rewrite Hr. apply NoDup_fst_map_to_list.
Qed.

End SetEnv_facts.

Section overlay.
Implicit Types (t : Ts) (envVars : gmap string string)
  (range : list (string * string)) (env : list string).

Lemma filter_none {A} (P : A → Prop) `{∀ x, Decision (P x)} (l : list A) :
  (∀ x, x ∈ l → ¬ P x) → filter P l = [].
Proof.
  induction l as [|x l IH]; intros Hl; [done|].
  rewrite filter_cons_False by (apply Hl; left).
  apply IH. intros y Hy. apply Hl. by right.
Qed.

Lemma filter_all {A} (P : A → Prop) `{∀ x, Decision (P x)} (l : list A) :
  (∀ x, x ∈ l → P x) → filter P l = l.
Proof.
  induction l as [|x l IH]; intros Hl; [done|].
  rewrite filter_cons_True by (apply Hl; left).
  f_equal. apply IH. intros y Hy. apply Hl. by right.
Qed.


Lemma overlay_not_retained envVars range :
  ranges envVars range →
  (∀ k, is_Some (envVars !! k) → strings.ContainsRune k "=" = false) →
  ∀ e, e ∈ Sprintf_kv <$> range → ¬ retained envVars e.
Proof.
  intros Hr Hkeys e [[k v] [-> Hkv]]%list_elem_of_fmap.
  apply (ranges_lookup _ _ _ _ Hr) in Hkv.
  unfold retained. rewrite entry_key_Sprintf by eauto. by rewrite Hkv.
Qed.





Lemma ranges_singleton k v range :
  ranges {[k := v]} range → range = [(k, v)].
Proof.
  unfold ranges. rewrite map_to_list_singleton. apply Permutation_singleton_r.
Qed.

End overlay.




(** A key of the overlay that itself contains [=] is a second way to a
    repeated key: [{A: 1, A=x: 2}] gives [A=1] and [A=x=2]. *)
Lemma SetEnv_overlay_key_with_equals :
  env_keys (GetEnv (SetEnv [("A", "1"); ("A=x", "2")]
                           {["A" := "1"; "A=x" := "2"]} (handle_with [])))
  = ["A"; "A"].
Proof. reflexivity. Qed.



(** C6, as the code has it.  A key of the overlay that contains [=]
    is read back with a shorter key, so its entry survives the second
    call and is appended once more. *)
Lemma SetEnv_not_idempotent :
  ¬ (∀ (t : Ts) (envVars : gmap string string) range1 range2,
       ranges envVars range1 → ranges envVars range2 →
       GetEnv (SetEnv range2 envVars (SetEnv range1 envVars t))
       ≡ₚ GetEnv (SetEnv range1 envVars t)).
Proof.
  intros H.
  assert (Hr : ranges {["A=B" := "c"]} [("A=B", "c")]) by (vm_compute; reflexivity).
  specialize (H (handle_with []) {["A=B" := "c"]} _ _ Hr Hr).
  apply Permutation_length in H. vm_compute in H. discriminate H.
Qed.

(** C6, amended.  For a map none of whose keys contains [=], applying
    [SetEnv] with it twice in succession leaves the same entries (as a
    multiset) as applying it once; with [{A: 1}] there is exactly one
    entry [A=1] after the first and after the second call. *)
Theorem SetEnv_idempotent (t : Ts) (envVars : gmap string string)
    (range1 range2 : list (string * string)) :
  ranges envVars range1 → ranges envVars range2 →
  (∀ k, is_Some (envVars !! k) → strings.ContainsRune k "=" = false) →
  let once := GetEnv (SetEnv range1 envVars t) in
  let twice := GetEnv (SetEnv range2 envVars (SetEnv range1 envVars t)) in
  twice ≡ₚ once ∧
  (envVars = {["A" := "1"]} →
   length (filter (eq "A=1") once) = 1%nat ∧
   length (filter (eq "A=1") twice) = 1%nat).
Proof.
  intros Hr1 Hr2 Hkeys once twice.
  assert (Htwice : twice = filter (retained envVars) (GetEnv t)
                           ++ (Sprintf_kv <$> range2)).
  { subst twice. rewrite GetEnv_SetEnv, GetEnv_SetEnv, filter_app.
    rewrite (filter_all (retained envVars) (filter _ _))
      by (by intros x [Hx _]%list_elem_of_filter).
    rewrite (filter_none (retained envVars) (Sprintf_kv <$> range1))
      by (by apply overlay_not_retained).
    by rewrite app_nil_r. }
  assert (Honce : once = filter (retained envVars) (GetEnv t)
                         ++ (Sprintf_kv <$> range1))
    by apply GetEnv_SetEnv.
  split.
  - rewrite Htwice, Honce. apply Permutation_app_head, fmap_Permutation.
    unfold ranges in *. by rewrite Hr1, Hr2.
  - intros ->. apply ranges_singleton in Hr1, Hr2.
    rewrite Htwice, Honce, Hr1, Hr2, filter_app.
    rewrite (filter_none (eq "A=1")); [done|].
    intros x [Hx _]%list_elem_of_filter <-. by vm_compute in Hx.
Qed.

Lemma SetEnv_idempotent_witness :
  GetEnv (SetEnv [("A", "1")] {["A" := "1"]}
            (SetEnv [("A", "1")] {["A" := "1"]} (handle_with ["A=0"; "B=2"])))
  ≡ₚ GetEnv (SetEnv [("A", "1")] {["A" := "1"]} (handle_with ["A=0"; "B=2"])).
Proof.
  refine (proj1 (SetEnv_idempotent (handle_with ["A=0"; "B=2"])
                   {["A" := "1"]} [("A", "1")] [("A", "1")] _ _ _)).
  - vm_compute; reflexivity.
  - vm_compute; reflexivity.
  - intros k [v Hk]. apply lookup_singleton_Some in Hk as [<- _]. reflexivity.
Defined.

(** ** Splitting and trimming *)

Section Split_facts.
Implicit Types (s : string) (c sep : ascii).

Lemma Count_Cut_None sep s :
  strings.Cut sep s = None → strings.Count sep s = O.
Proof.
  induction s as [|c s IH]; simpl; [done|].
  destruct (Ascii.eqb c sep); [done|].
  destruct (strings.Cut sep s) as [[]|]; [done | auto].
Qed.

Lemma Count_Cut_Some sep s a b :
  strings.Cut sep s = Some (a, b) →
  strings.Count sep s = S (strings.Count sep b).
Proof.
  revert a. induction s as [|c s IH]; intros a; simpl; [done|].
  destruct (Ascii.eqb c sep); [by intros [= <- <-]|].
  destruct (strings.Cut sep s) as [[a' b']|]; [|done].
  intros [= <- <-]. by apply (IH a').
Qed.

Lemma Split_unfold s sep :
  strings.Split s sep =
  match strings.Cut sep s with
  | None => [s]
  | Some (a, b) => a :: strings.Split b sep
  end.
Proof.
  unfold strings.Split. destruct (strings.Cut sep s) as [[a b]|] eqn:E.
  - rewrite (Count_Cut_Some _ _ _ _ E). simpl. by rewrite E.
  - by rewrite (Count_Cut_None _ _ E).
Qed.

(** [Split], read from the first byte on. *)
Lemma Split_cons c s sep :
  strings.Split (String c s) sep =
  if Ascii.eqb c sep then "" :: strings.Split s sep
  else match strings.Split s sep with
       | h :: tl => String c h :: tl
       | [] => []
       end.
Proof.
  rewrite (Split_unfold (String c s)), (Split_unfold s). simpl.
  destruct (Ascii.eqb c sep); [by rewrite <- Split_unfold|].
  by destruct (strings.Cut sep s) as [[a b]|].
Qed.

Lemma Split_not_nil s sep : strings.Split s sep ≠ [].
Proof. rewrite Split_unfold. by destruct (strings.Cut sep s) as [[]|]. Qed.

Lemma Join_cons_cons x y l (glue : string) :
  strings.Join (x :: y :: l) glue = x +:+ glue +:+ strings.Join (y :: l) glue.
Proof. done. Qed.

Lemma Join_Split s sep :
  strings.Join (strings.Split s sep) (String sep "") = s.
Proof.
  induction s as [|c s IH]; [done|]. rewrite Split_cons.
  pose proof (Split_not_nil s sep) as Hne.
  destruct (strings.Split s sep) as [|h tl]; [done|].
  destruct (Ascii.eqb_spec c sep) as [->|Hc].
  - rewrite Join_cons_cons, IH. reflexivity.
  - destruct tl as [|y tl].
    + simpl in *. by rewrite IH.
    + rewrite Join_cons_cons in *. rewrite <- IH. reflexivity.
Qed.

Lemma Split_no_sep s sep :
  Forall (λ l, strings.ContainsRune l sep = false) (strings.Split s sep).
Proof.
  induction s as [|c s IH]; [by repeat constructor|]. rewrite Split_cons.
  destruct (Ascii.eqb c sep) eqn:Ec; [by constructor|].
  destruct (strings.Split s sep) as [|h tl]; [done|].
  apply Forall_cons in IH as [Hh Htl]. constructor; [|done].
  unfold strings.ContainsRune in *. simpl. rewrite Ec.
  by destruct (strings.Cut sep h) as [[]|].
Qed.

Lemma isSpace_LF : strings.isSpace LF = true.
Proof. done. Qed.

Lemma TrimLeft_length s :
  (String.length (strings.TrimLeft s) ≤ String.length s)%nat.
Proof.
  induction s as [|c s IH]; simpl; [done|].
  destruct (strings.isSpace c); simpl; lia.
Qed.

(** A text that [TrimLeft] leaves alone is empty or starts with a byte
    that is not white space. *)
Lemma TrimLeft_fixed c s :
  strings.TrimLeft (String c s) = String c s ↔ strings.isSpace c = false.
Proof.
  simpl. destruct (strings.isSpace c); [|done]. split; [|done].
  intros Heq. pose proof (TrimLeft_length s) as Hlen.
  rewrite Heq in Hlen. simpl in Hlen. lia.
Qed.

Lemma TrimRight_cons c s :
  strings.TrimRight (String c s) = String c s ↔
  (s = "" ∧ strings.isSpace c = false) ∨
  (s ≠ "" ∧ strings.TrimRight s = s).
Proof.
  simpl. destruct (strings.TrimRight s) as [|c' s'] eqn:E.
  - destruct (strings.isSpace c); split; try done.
    + intros [[_ ?]|[Hs Hs']]; [done | congruence].
    + intros [= <-]. by left.
    + intros [[-> _]|[Hs Hs']]; [done | congruence].
  - split.
    + intros [= <-]. by right.
    + intros [[-> _]|[_ <-]]; done.
Qed.

Lemma TrimRight_idemp s :
  strings.TrimRight (strings.TrimRight s) = strings.TrimRight s.
Proof.
  induction s as [|c s IH]; [done|]. simpl.
  destruct (strings.TrimRight s) as [|c' s'] eqn:E.
  - destruct (strings.isSpace c) eqn:Ec; [done|]. simpl. by rewrite Ec.
  - apply TrimRight_cons. by right.
Qed.

Lemma TrimLeft_idemp s :
  strings.TrimLeft (strings.TrimLeft s) = strings.TrimLeft s.
Proof.
  induction s as [|c s IH]; [done|]. simpl.
  destruct (strings.isSpace c) eqn:Ec; [done|]. simpl. by rewrite Ec.
Qed.

Lemma TrimLeft_TrimRight s :
  strings.TrimLeft s = s →
  strings.TrimLeft (strings.TrimRight s) = strings.TrimRight s.
Proof.
  destruct s as [|c s]; [done|]. intros Hc%TrimLeft_fixed. simpl.
  destruct (strings.TrimRight s); rewrite ?Hc; simpl; by rewrite Hc.
Qed.

(** What [TrimSpace] returns has no white space at either end. *)
Lemma TrimSpace_trimmed s :
  strings.TrimLeft (strings.TrimSpace s) = strings.TrimSpace s ∧
  strings.TrimRight (strings.TrimSpace s) = strings.TrimSpace s.
Proof.
  unfold strings.TrimSpace. split.
  - apply TrimLeft_TrimRight, TrimLeft_idemp.
  - apply TrimRight_idemp.
Qed.

Lemma Split_head s :
  s ≠ "" → strings.TrimLeft s = s →
  ∃ f, head (strings.Split s LF) = Some f ∧ f ≠ "" ∧ strings.TrimLeft f = f.
Proof.
  destruct s as [|c s]; [done|]. intros _ Hc%TrimLeft_fixed.
  rewrite Split_cons.
  destruct (Ascii.eqb_spec c LF) as [->|Hne]; [by rewrite isSpace_LF in Hc|].
  pose proof (Split_not_nil s LF) as Hnil.
  destruct (strings.Split s LF) as [|h tl]; [done|].
  exists (String c h). split; [done|]. split; [done|]. by apply TrimLeft_fixed.
Qed.

Lemma Split_last s :
  s ≠ "" → strings.TrimRight s = s →
  ∃ z, last (strings.Split s LF) = Some z ∧ z ≠ "" ∧ strings.TrimRight z = z.
Proof.
  induction s as [|c s IH]; [done|]. intros _ Hs.
  apply TrimRight_cons in Hs as [[-> Hc]|[Hne Hs]].
  - rewrite Split_cons.
    destruct (Ascii.eqb_spec c LF) as [->|Hc']; [by rewrite isSpace_LF in Hc|].
    exists (String c ""). split; [done|]. split; [done|].
    apply TrimRight_cons. by left.
  - destruct (IH Hne Hs) as (z & Hlast & Hz & Hzt). rewrite Split_cons.
    destruct (Ascii.eqb c LF).
    + exists z. split; [|done]. rewrite last_cons. by rewrite Hlast.
    + destruct (strings.Split s LF) as [|h [|y tl]]; [done| |].
      * injection Hlast as ->. exists (String c z).
        split; [done|]. split; [done|]. apply TrimRight_cons. by right.
      * exists z. split; [exact Hlast | done].
Qed.

End Split_facts.

(** ** Execution *)

Section Exec_facts.
Context `{os : OS}.
Implicit Types (t : Ts) (w : World).

Lemma Exec_blocked t w :
  exitCode t ≠ 0 → exitCode t ≠ -1 → Exec t w = (t, w).
Proof.
  intros H0 H1. unfold Exec.
  by rewrite (bool_decide_eq_true_2 _ H0), (bool_decide_eq_true_2 _ H1).
Qed.

Lemma guard_open t :
  exitCode t = 0 ∨ exitCode t = -1 →
  bool_decide (exitCode t ≠ 0) && bool_decide (exitCode t ≠ -1) = false.
Proof.
  intros [E|E]; rewrite E.
  - by rewrite bool_decide_eq_false_2 by (by intros []).
  - rewrite (bool_decide_eq_false_2 (-1 ≠ -1)) by (by intros []).
    apply andb_false_r.
Qed.

(** What a call that passes the guard leaves behind. *)
Lemma Exec_runs t w :
  exitCode t = 0 ∨ exitCode t = -1 →
  let r := Run w (Exec_command t) in
  Exec t w =
  (mkTs (Cfg t)
        (strings.TrimSpace (out_bytes r))
        (if DeadlineExceeded r then timed_out_message (Timeout (Cfg t))
         else strings.TrimSpace (stderr_bytes r))
        (if DeadlineExceeded r then -1 else default (-1) (ProcessState r)),
   Exec_command t :: w).
Proof.
  intros Hopen r. unfold Exec. rewrite (guard_open t Hopen).
  fold (Exec_command t). fold r.
  destruct (run_err r), (ProcessState r), (DeadlineExceeded r); reflexivity.
Qed.

Lemma Exec_stdout_trimmed t w :
  strings.TrimSpace (stdout t) = stdout t →
  strings.TrimSpace (stdout (Exec t w).1) = stdout (Exec t w).1.
Proof.
  intros Ht.
  destruct (decide (exitCode t = 0 ∨ exitCode t = -1)) as [Hopen|Hshut].
  - rewrite (Exec_runs t w Hopen). simpl.
    destruct (TrimSpace_trimmed (out_bytes (Run w (Exec_command t)))) as [Hl Hr].
    unfold strings.TrimSpace at 1. by rewrite Hl, Hr.
  - rewrite Exec_blocked; [done|lia|lia].
Qed.

(** Every handle made by [New] and changed by [SetEnv] and [Exec] has a
    trimmed [stdout]. *)
Lemma reachable_stdout_trimmed t w :
  reachable t w → strings.TrimSpace (stdout t) = stdout t.
Proof.
  induction 1 as [cmdStr config|t w envVars range _ IH _|t w _ IH].
  - done.
  - exact IH.
  - by apply Exec_stdout_trimmed.
Qed.

Lemma TrimSpace_fixed s :
  strings.TrimSpace s = s →
  strings.TrimLeft s = s ∧ strings.TrimRight s = s.
Proof. intros <-. apply TrimSpace_trimmed. Qed.

Lemma Contains_middle pre s post : strings.Contains (pre +:+ s +:+ post) s.
Proof. by exists pre, post. Qed.

End Exec_facts.

(** C1.  [Exec] on a handle whose [exitCode] is neither 0 nor -1 starts
    no process and returns the handle as it was; on a handle whose
    [exitCode] is 0 or -1 it starts the shell once more and records
    what that run produced. *)
Theorem Exec_guard `{OS} (t : Ts) (w : World) :
  (ExitCode t ≠ 0 → ExitCode t ≠ -1 → Exec t w = (t, w)) ∧
  (ExitCode t = 0 ∨ ExitCode t = -1 →
   let r := Run w (Exec_command t) in
   let t' := (Exec t w).1 in
   (Exec t w).2 = Exec_command t :: w ∧
   cmd_Stdin (Exec_command t) = Cmd (Cfg t) ∧
   cmd_Env (Exec_command t) = Env (Cfg t) ∧
   Stdout t' = strings.TrimSpace (out_bytes r) ∧
   (DeadlineExceeded r = false →
    Stderr t' = strings.TrimSpace (stderr_bytes r) ∧
    ExitCode t' = default (-1) (ProcessState r))).
Proof.
  split; [apply Exec_blocked|].
  intros Hopen r t'. subst t'. rewrite (Exec_runs t w Hopen). fold r. simpl.
  do 4 (split; [done|]). by intros ->.
Qed.

Lemma Exec_guard_witness :
  ExitCode (run_once exit_status_3 "exit 3").1 = 3 ∧
  @Exec (scripted three_lines) (run_once exit_status_3 "exit 3").1 []
  = ((run_once exit_status_3 "exit 3").1, []) ∧
  (run_once three_lines "ls").2
  = [@Exec_command (scripted three_lines) (@New (scripted three_lines) "ls" None)].
Proof.
  split; [reflexivity|]. split.
  - apply (proj1 (@Exec_guard (scripted three_lines)
                    (run_once exit_status_3 "exit 3").1 []));
      vm_compute; discriminate.
  - apply (proj2 (@Exec_guard (scripted three_lines)
                    (@New (scripted three_lines) "ls" None) [])).
    left. reflexivity.
Defined.

(** C2.  When the deadline is exceeded during a run, [ExitCode] is -1
    and [Stderr] is the timeout message, which contains the text of the
    configured duration, whatever the process itself reported. *)
Theorem Exec_timed_out `{OS} (t : Ts) (w : World) :
  ExitCode t = 0 ∨ ExitCode t = -1 →
  DeadlineExceeded (Run w (Exec_command t)) = true →
  let t' := (Exec t w).1 in
  ExitCode t' = -1 ∧
  Stderr t' = "Error: Command execution timed out after "
              +:+ time.String (Timeout (Cfg t)) +:+ "." ∧
  strings.Contains (Stderr t') (time.String (Timeout (Cfg t))).
Proof.
  intros Hopen Hdl t'. subst t'. rewrite (Exec_runs t w Hopen). simpl.
  rewrite Hdl. split; [done|]. split; [done|]. apply Contains_middle.
Qed.

Lemma Exec_timed_out_witness :
  ExitCode (run_once killed_at_deadline "sleep 100").1 = -1 ∧
  Stderr (run_once killed_at_deadline "sleep 100").1
  = "Error: Command execution timed out after 1m0s.".
Proof.
  assert (Hopen : ExitCode (@New (scripted killed_at_deadline) "sleep 100" None) = 0
                  ∨ ExitCode (@New (scripted killed_at_deadline) "sleep 100" None) = -1)
    by (left; reflexivity).
  destruct (@Exec_timed_out (scripted killed_at_deadline)
              (@New (scripted killed_at_deadline) "sleep 100" None) []
              Hopen eq_refl) as (Hc & He & _).
  split; [exact Hc|]. unfold run_once. rewrite He. vm_compute. reflexivity.
Defined.

(** C3, at a failing input.  The shell exits with status 3 and writes
    nothing to its error stream: [cmd.Run] returns the error
    [exit status 3], which [Exec] stores in [stderr] and then
    overwrites with the (empty) captured stream. *)
Theorem Exec_run_error_text_lost :
  run_err (@Run (scripted exit_status_3) []
             (@Exec_command (scripted exit_status_3)
                (@New (scripted exit_status_3) "exit 3" None)))
  = Some "exit status 3" ∧
  DeadlineExceeded (@Run (scripted exit_status_3) []
                      (@Exec_command (scripted exit_status_3)
                         (@New (scripted exit_status_3) "exit 3" None)))
  = false ∧
  ExitCode (run_once exit_status_3 "exit 3").1 = 3 ∧
  Stderr (run_once exit_status_3 "exit 3").1 = "" ∧
  Stderr (run_once exit_status_3 "exit 3").1 ≠ "exit status 3".
Proof. vm_compute. repeat split; discriminate. Qed.

(** ** Parsing the output *)

(** C7, as the code has it.  [Lines] only splits at line feeds: after a
    run that printed [a], an empty line and an indented [b], it returns
    [a], the empty string and [  b]. *)
Lemma Lines_keeps_empty_lines :
  ¬ (∀ (os : OS) (t : Ts) (w : World), reachable t w →
       (Stdout t = "" → length (Lines t) = 0%nat) ∧
       (∀ l, l ∈ Lines t → l ≠ "" ∧ strings.TrimSpace l = l)).
Proof.
  intros H.
  destruct (H (scripted three_lines) _ _
              (@reach_Exec (scripted three_lines) _ _ (reach_New "printf" None)))
    as [_ Hall].
  destruct (Hall "") as [Hne _]; [|done].
  change (Exec (New "printf" None) []) with (run_once three_lines "printf").
  assert (Lines (run_once three_lines "printf").1 = ["a"; ""; "  b"]) as ->
    by reflexivity.
  apply elem_of_cons. right. apply elem_of_cons. by left.
Qed.

(** C7, amended.  On an empty [Stdout] the result of [Lines] has length
    0.  Otherwise it is [Stdout] cut at every line feed: no element
    contains a line feed and joining the elements with line feeds gives
    [Stdout] back; the first element is not empty and starts with no
    white space, the last is not empty and ends with no white space.
    (The elements in between may be empty or carry white space.) *)
Theorem Lines_segments `{OS} (t : Ts) (w : World) :
  reachable t w →
  (Stdout t = "" → length (Lines t) = 0%nat) ∧
  (Stdout t ≠ "" →
   strings.Join (Lines t) nl = Stdout t ∧
   Forall (λ l, strings.ContainsRune l LF = false) (Lines t) ∧
   ∃ f z, head (Lines t) = Some f ∧ last (Lines t) = Some z ∧
          f ≠ "" ∧ strings.TrimLeft f = f ∧
          z ≠ "" ∧ strings.TrimRight z = z).
Proof.
  intros Hreach. unfold Lines. split.
  - intros ->. done.
  - intros Hne. destruct (decide (Stdout t = "")) as [|_]; [done|].
    split; [apply Join_Split|]. split; [apply Split_no_sep|].
    destruct (TrimSpace_fixed _ (reachable_stdout_trimmed t w Hreach))
      as [Hl Hr].
    destruct (Split_head (Stdout t) Hne Hl) as (f & Hf & Hf1 & Hf2).
    destruct (Split_last (Stdout t) Hne Hr) as (z & Hz & Hz1 & Hz2).
    by exists f, z.
Qed.

Lemma Lines_segments_witness :
  Lines (run_once three_lines "printf").1 = ["a"; ""; "  b"] ∧
  strings.Join (Lines (run_once three_lines "printf").1) nl
  = Stdout (run_once three_lines "printf").1.
Proof.
  split; [reflexivity|].
  refine (proj1 (proj2 (@Lines_segments (scripted three_lines)
                          (run_once three_lines "printf").1
                          (run_once three_lines "printf").2 _) _)).
  - apply (@reach_Exec (scripted three_lines)), reach_New.
  - vm_compute. discriminate.
Defined.

Section Fields_facts.
Implicit Types (t : Ts) (line : string) (expectedLen : Z).


Lemma fit_truncate n tokens :
  (n ≤ length tokens)%nat → fit n tokens = take n tokens.
Proof.
  intros Hn. unfold fit. replace (n - length tokens)%nat with O by lia.
  apply app_nil_r.
Qed.

Lemma fit_pad n tokens :
  (length tokens ≤ n)%nat →
  fit n tokens = tokens ++ replicate (n - length tokens) "".
Proof. intros Hn. unfold fit. by rewrite take_ge. Qed.

Lemma Fields_line_Ok expectedLen line :
  0 ≤ expectedLen →
  Fields_line expectedLen line
  = Ok (fit (Z.to_nat expectedLen) (strings.Fields line)).
Proof.
  intros Hn. unfold Fields_line.
  set (fields := strings.Fields line).
  destruct (Z.ltb_spec (Z.of_nat (length fields)) expectedLen) as [Hlt|Hge].
  - unfold make_strings.
    destruct (Z.ltb_spec (expectedLen - Z.of_nat (length fields)) 0); [lia|].
    simpl. rewrite fit_pad by lia. do 3 f_equal. lia.
  - destruct (Z.ltb_spec expectedLen (Z.of_nat (length fields))) as [Hgt|Hle].
    + unfold slice_to.
      destruct (Z.ltb_spec expectedLen 0); [lia|].
      destruct (Z.ltb_spec (Z.of_nat (length fields)) expectedLen); [lia|].
      simpl. by rewrite fit_truncate by lia.
    + rewrite fit_truncate by lia. by rewrite take_ge by lia.
Qed.

Lemma Fields_line_Panic expectedLen line :
  expectedLen < 0 →
  Fields_line expectedLen line = Panic (SliceBoundsOutOfRange expectedLen).
Proof.
  intros Hn. unfold Fields_line.
  set (fields := strings.Fields line).
  destruct (Z.ltb_spec (Z.of_nat (length fields)) expectedLen); [lia|].
  destruct (Z.ltb_spec expectedLen (Z.of_nat (length fields))); [|lia].
  unfold slice_to. by destruct (Z.ltb_spec expectedLen 0); [|lia].
Qed.

Lemma Fields_loop_Ok expectedLen lines acc :
  0 ≤ expectedLen →
  foldl (λ acc line,
           result ← acc;
           fields ← Fields_line expectedLen line;
           Ok (result ++ [fields])) (Ok acc) lines
  = Ok (acc ++ (fit (Z.to_nat expectedLen) ∘ strings.Fields <$> lines)).
Proof.
  intros Hn. revert acc.
  induction lines as [|line lines IH]; intros acc; simpl.
  { by rewrite app_nil_r. }
  rewrite Fields_line_Ok by done. simpl. by rewrite IH, <- app_assoc.
Qed.

Lemma Fields_loop_Panic expectedLen lines p :
  foldl (λ acc line,
           result ← acc;
           fields ← Fields_line expectedLen line;
           Ok (result ++ [fields])) (Panic p) lines
  = Panic p.
Proof. induction lines as [|line lines IH]; [done|]. simpl. exact IH. Qed.

Lemma Fields_Ok t expectedLen :
  0 ≤ expectedLen →
  Fields t expectedLen
  = Ok (fit (Z.to_nat expectedLen) ∘ strings.Fields <$> Lines t).
Proof. intros Hn. unfold Fields. by rewrite Fields_loop_Ok. Qed.

Lemma Lines_not_nil t : Stdout t ≠ "" → Lines t ≠ [].
Proof.
  intros Hne. unfold Lines. destruct (decide _); [done|]. apply Split_not_nil.
Qed.

Lemma Fields_Panic t expectedLen :
  expectedLen < 0 → Stdout t ≠ "" →
  Fields t expectedLen = Panic (SliceBoundsOutOfRange expectedLen).
Proof.
  intros Hn Hne%Lines_not_nil. unfold Fields.
  destruct (Lines t) as [|line lines]; [done|]. simpl.
  rewrite Fields_line_Panic by done. apply Fields_loop_Panic.
Qed.


End Fields_facts.







(** * Further properties of the package *)

(** ** More on [SetEnv] *)

Section SetEnv_more.
Implicit Types (t : Ts) (envVars : gmap string string)
  (range : list (string * string)) (env : list string).

Lemma retained_union (m1 m2 : gmap string string) kv :
  retained (m2 ∪ m1) kv ↔ retained m1 kv ∧ retained m2 kv.
Proof.
  unfold retained. destruct (entry_key kv) as [k|]; [|tauto].
  rewrite lookup_union_None. tauto.
Qed.


(** The overlay entries that a second overlay keeps are those whose
    key it does not set itself. *)
Lemma filter_retained_overlay (m2 : gmap string string) range :
  (∀ k v, (k, v) ∈ range → strings.ContainsRune k "=" = false) →
  filter (retained m2) (Sprintf_kv <$> range)
  = Sprintf_kv <$> filter (λ kv, m2 !! kv.1 = None) range.
Proof.
  induction range as [|[k v] range IH]; intros Hk; [done|].
  rewrite fmap_cons, !filter_cons, IH
    by (intros k' v' Hin; eapply Hk; right; exact Hin).
  assert (Hkey : entry_key (Sprintf_kv (k, v)) = Some k)
    by (apply entry_key_Sprintf; eapply Hk; left).
  destruct (decide (retained m2 (Sprintf_kv (k, v)))) as [Hr|Hr];
    unfold retained in Hr; rewrite Hkey in Hr;
    destruct (decide (m2 !! (k, v).1 = None)) as [Hn|Hn]; simpl in Hn;
    done.
Qed.

Lemma range_union_Permutation (m1 m2 : gmap string string) range1 range2 :
  ranges m1 range1 → ranges m2 range2 →
  filter (λ kv, m2 !! kv.1 = None) range1 ++ range2
  ≡ₚ map_to_list (m2 ∪ m1).
Proof.
  intros Hr1 Hr2. apply NoDup_Permutation.
  - apply NoDup_app. split; [|split].
    + apply NoDup_filter. unfold ranges in Hr1. rewrite Hr1.
      apply NoDup_map_to_list.
    + intros [k v] [Hn _]%list_elem_of_filter Hin. simpl in Hn.
      apply (ranges_lookup _ _ _ _ Hr2) in Hin. congruence.
    + unfold ranges in Hr2. rewrite Hr2. apply NoDup_map_to_list.
  - apply NoDup_map_to_list.
  - intros [k v]. rewrite elem_of_app, list_elem_of_filter,
      elem_of_map_to_list, lookup_union_Some_raw,
      (ranges_lookup _ _ _ _ Hr1), (ranges_lookup _ _ _ _ Hr2).
    simpl. tauto.
Qed.

(** Two overlays in a row, as a list. *)
Lemma GetEnv_SetEnv_SetEnv t (m1 m2 : gmap string string) range1 range2 :
  (∀ k, is_Some (m1 !! k) → strings.ContainsRune k "=" = false) →
  ranges m1 range1 →
  GetEnv (SetEnv range2 m2 (SetEnv range1 m1 t))
  = filter (retained (m2 ∪ m1)) (GetEnv t)
    ++ (Sprintf_kv <$> (filter (λ kv, m2 !! kv.1 = None) range1 ++ range2)).
Proof.
  intros Hkeys Hr1. rewrite !GetEnv_SetEnv, filter_app, list_filter_filter.
  rewrite fmap_app, app_assoc. f_equal. f_equal.
  - apply list_filter_iff. intros kv. rewrite retained_union. tauto.
  - apply filter_retained_overlay. intros k v Hin. apply Hkeys.
    apply (ranges_lookup _ _ _ _ Hr1) in Hin. by eexists.
Qed.

End SetEnv_more.

(** X1.  Two overlays in a row amount to one overlay with the union of
    the two maps in which the second map wins: the resulting lists
    have the same entries.  (The keys of the first map must be free of
    [=].) *)
Theorem SetEnv_twice_is_union (t : Ts) (m1 m2 : gmap string string)
    (range1 range2 range : list (string * string)) :
  (∀ k, is_Some (m1 !! k) → strings.ContainsRune k "=" = false) →
  ranges m1 range1 → ranges m2 range2 → ranges (m2 ∪ m1) range →
  GetEnv (SetEnv range2 m2 (SetEnv range1 m1 t))
  ≡ₚ GetEnv (SetEnv range (m2 ∪ m1) t).
Proof.
  intros Hkeys Hr1 Hr2 Hr.
  rewrite GetEnv_SetEnv_SetEnv, GetEnv_SetEnv by done.
  apply Permutation_app_head, fmap_Permutation.
  unfold ranges in Hr. rewrite Hr. by apply range_union_Permutation.
Qed.

Lemma SetEnv_twice_is_union_witness :
  GetEnv (SetEnv [("A", "2"); ("C", "3")] {["A" := "2"; "C" := "3"]}
            (SetEnv [("A", "1"); ("B", "1")] {["A" := "1"; "B" := "1"]}
               (handle_with ["A=0"; "D=4"])))
  ≡ₚ GetEnv (SetEnv [("C", "3"); ("A", "2"); ("B", "1")]
               ({["A" := "2"; "C" := "3"]} ∪ {["A" := "1"; "B" := "1"]})
               (handle_with ["A=0"; "D=4"])).
Proof.
  apply SetEnv_twice_is_union.
  - intros k [v Hk]. apply lookup_insert_Some in Hk as [[<- _]|[_ Hk]];
      [reflexivity|].
    apply lookup_singleton_Some in Hk as [<- _]. reflexivity.
  - vm_compute. reflexivity.
  - vm_compute. apply perm_swap.
  - vm_compute. reflexivity.
Defined.

(** X2.  Overlays with disjoint maps commute: applied in either order
    they leave the same entries. *)
Theorem SetEnv_disjoint_commute (t : Ts) (m1 m2 : gmap string string)
    (r1 r2 r1' r2' : list (string * string)) :
  m1 ##ₘ m2 →
  (∀ k, is_Some (m1 !! k) → strings.ContainsRune k "=" = false) →
  (∀ k, is_Some (m2 !! k) → strings.ContainsRune k "=" = false) →
  ranges m1 r1 → ranges m2 r2 → ranges m1 r1' → ranges m2 r2' →
  GetEnv (SetEnv r2 m2 (SetEnv r1 m1 t))
  ≡ₚ GetEnv (SetEnv r1' m1 (SetEnv r2' m2 t)).
Proof.
  intros Hdisj Hk1 Hk2 Hr1 Hr2 Hr1' Hr2'.
  rewrite !GetEnv_SetEnv_SetEnv by done.
  rewrite (map_union_comm m2 m1) by done.
  apply Permutation_app_head, fmap_Permutation.
  rewrite (range_union_Permutation m2 m1) by done.
  rewrite (range_union_Permutation m1 m2) by done.
  by rewrite (map_union_comm m2 m1).
Qed.

Lemma SetEnv_disjoint_commute_witness :
  GetEnv (SetEnv [("B", "2")] {["B" := "2"]}
            (SetEnv [("A", "1")] {["A" := "1"]} (handle_with ["A=0"; "D=4"])))
  ≡ₚ GetEnv (SetEnv [("A", "1")] {["A" := "1"]}
               (SetEnv [("B", "2")] {["B" := "2"]} (handle_with ["A=0"; "D=4"]))).
Proof.
  apply SetEnv_disjoint_commute.
  - apply map_disjoint_singleton_l. reflexivity.
  - intros k [v Hk]. apply lookup_singleton_Some in Hk as [<- _]. reflexivity.
  - intros k [v Hk]. apply lookup_singleton_Some in Hk as [<- _]. reflexivity.
  - vm_compute. reflexivity.
  - vm_compute. reflexivity.
  - vm_compute. reflexivity.
  - vm_compute. reflexivity.
Defined.

Section SetEnv_by_key.
Implicit Types (t : Ts) (envVars : gmap string string)
  (range : list (string * string)) (env : list string).

Lemma overlay_filter_key range k v :
  (∀ k' v', (k', v') ∈ range → strings.ContainsRune k' "=" = false) →
  NoDup range.*1 → (k, v) ∈ range →
  filter (λ e, entry_key e = Some k) (Sprintf_kv <$> range)
  = [Sprintf_kv (k, v)].
Proof.
  induction range as [|[k' v'] range IH]; intros Hkeys Hnd Hin.
  { by apply elem_of_nil in Hin. }
  rewrite fmap_cons, filter_cons.
  rewrite (entry_key_Sprintf k' v') by (eapply Hkeys; left).
  apply NoDup_cons in Hnd as [Hk' Hnd].
  apply elem_of_cons in Hin as [[= <- <-]|Hin].
  - rewrite decide_True by done. f_equal. apply filter_none.
    intros e [[k2 v2] [-> Hin2]]%list_elem_of_fmap.
    rewrite entry_key_Sprintf by (eapply Hkeys; right; exact Hin2).
    intros [= ->]. apply Hk'. apply list_elem_of_fmap. by exists (k, v2).
  - rewrite decide_False.
    + apply IH; [|done..]. intros k2 v2 Hin2. eapply Hkeys. right. exact Hin2.
    + intros [= ->]. apply Hk'. apply list_elem_of_fmap. by exists (k, v).
Qed.

Lemma overlay_filter_other_key envVars range k :
  (∀ k, is_Some (envVars !! k) → strings.ContainsRune k "=" = false) →
  ranges envVars range → envVars !! k = None →
  filter (λ e, entry_key e = Some k) (Sprintf_kv <$> range) = [].
Proof.
  intros Hkeys Hr Hk. apply filter_none.
  intros e [[k' v'] [-> Hin]]%list_elem_of_fmap.
  apply (ranges_lookup _ _ _ _ Hr) in Hin.
  rewrite entry_key_Sprintf by eauto. intros [= ->]. congruence.
Qed.

End SetEnv_by_key.

(** X3.  The overlay wins: for a pair [k, v] of the map, the new list
    has exactly one entry with key [k], and it is [k=v]. *)
Theorem SetEnv_overlay_wins (t : Ts) (envVars : gmap string string)
    (range : list (string * string)) (k v : string) :
  (∀ k, is_Some (envVars !! k) → strings.ContainsRune k "=" = false) →
  ranges envVars range →
  envVars !! k = Some v →
  filter (λ e, entry_key e = Some k) (GetEnv (SetEnv range envVars t))
  = [k +:+ "=" +:+ v].
Proof.
  intros Hkeys Hr Hk. rewrite GetEnv_SetEnv, filter_app.
  rewrite (filter_none (λ e, entry_key e = Some k) (filter _ _)).
  2:{ intros e [Hret _]%list_elem_of_filter He. unfold retained in Hret.
      rewrite He in Hret. congruence. }
  apply (overlay_filter_key range k v).
  - intros k' v' Hin. apply Hkeys. apply (ranges_lookup _ _ _ _ Hr) in Hin.
    by eexists.
  - by apply (ranges_NoDup_keys envVars).
  - by apply (ranges_lookup _ _ _ _ Hr).
Qed.

Lemma SetEnv_overlay_wins_witness :
  filter (λ e, entry_key e = Some "A")
         (GetEnv (SetEnv [("A", "9")] {["A" := "9"]}
                    (handle_with ["A=1"; "B=2"; "A=3"])))
  = ["A=9"].
Proof.
  apply (SetEnv_overlay_wins (handle_with ["A=1"; "B=2"; "A=3"])
           {["A" := "9"]} [("A", "9")] "A" "9").
  - intros k [v Hk]. apply lookup_singleton_Some in Hk as [<- _]. reflexivity.
  - vm_compute. reflexivity.
  - reflexivity.
Defined.

(** X4.  Keys that the overlay does not set are left alone: the
    entries with such a key are the same, in the same order and
    number, before and after. *)
Theorem SetEnv_other_keys_untouched (t : Ts) (envVars : gmap string string)
    (range : list (string * string)) (k : string) :
  (∀ k, is_Some (envVars !! k) → strings.ContainsRune k "=" = false) →
  ranges envVars range →
  envVars !! k = None →
  filter (λ e, entry_key e = Some k) (GetEnv (SetEnv range envVars t))
  = filter (λ e, entry_key e = Some k) (GetEnv t).
Proof.
  intros Hkeys Hr Hk. rewrite GetEnv_SetEnv, filter_app.
  rewrite (overlay_filter_other_key envVars) by done.
  rewrite app_nil_r, list_filter_filter. apply list_filter_iff.
  intros e. split; [tauto|]. intros He. split; [done|].
  unfold retained. by rewrite He.
Qed.

Lemma SetEnv_other_keys_untouched_witness :
  filter (λ e, entry_key e = Some "B")
         (GetEnv (SetEnv [("A", "9")] {["A" := "9"]}
                    (handle_with ["B=1"; "A=2"; "B=3"])))
  = filter (λ e, entry_key e = Some "B")
           (GetEnv (handle_with ["B=1"; "A=2"; "B=3"])).
Proof.
  apply SetEnv_other_keys_untouched.
  - intros k [v Hk]. apply lookup_singleton_Some in Hk as [<- _]. reflexivity.
  - vm_compute. reflexivity.
  - reflexivity.
Defined.



(** ** More on [Exec] *)

Section Exec_more.
Context `{os : OS}.
Implicit Types (t : Ts) (w : World) (cs : list call).

Lemma Exec_cases t w :
  (exitCode t ≠ 0 ∧ exitCode t ≠ -1 ∧ Exec t w = (t, w)) ∨
  ((exitCode t = 0 ∨ exitCode t = -1) ∧
   Cfg (Exec t w).1 = Cfg t ∧ (Exec t w).2 = Exec_command t :: w).
Proof.
  destruct (decide (exitCode t = 0 ∨ exitCode t = -1)) as [Hopen|Hshut].
  - right. split; [done|]. by rewrite (Exec_runs t w Hopen).
  - left. split; [lia|]. split; [lia|]. apply Exec_blocked; lia.
Qed.

Lemma Exec_Cfg t w : Cfg (Exec t w).1 = Cfg t.
Proof.
  destruct (Exec_cases t w) as [(_ & _ & ->)|(_ & HCfg & _)]; done.
Qed.

Lemma do_call_fixed_config c t w :
  let t' := (do_call c (t, w)).1 in
  Cmd (Cfg t') = Cmd (Cfg t) ∧ Shell (Cfg t') = Shell (Cfg t) ∧
  Timeout (Cfg t') = Timeout (Cfg t).
Proof.
  destruct c as [|range envVars]; simpl; [|done]. by rewrite Exec_Cfg.
Qed.

Lemma append_assoc (s1 s2 s3 : string) :
  (s1 +:+ s2) +:+ s3 = s1 +:+ s2 +:+ s3.
Proof. induction s1 as [|c s1 IH]; simpl; [done | by f_equal]. Qed.

Lemma append_not_nil (s : string) c : s +:+ String c "" ≠ "".
Proof. by destruct s. Qed.

Lemma TrimRight_snoc (s : string) c :
  strings.isSpace c = false →
  strings.TrimRight (s +:+ String c "") = s +:+ String c "".
Proof.
  intros Hc. induction s as [|a s IH].
  - simpl. by rewrite Hc.
  - change (String a s +:+ String c "") with (String a (s +:+ String c "")).
    apply TrimRight_cons. right. split; [apply append_not_nil | exact IH].
Qed.

Lemma timed_out_message_trimmed timeout :
  strings.TrimSpace (timed_out_message timeout) = timed_out_message timeout.
Proof.
  unfold strings.TrimSpace, timed_out_message.
  assert (Hl : ∀ s, strings.TrimLeft
                      ("Error: Command execution timed out after " +:+ s)
                    = "Error: Command execution timed out after " +:+ s)
    by done.
  rewrite Hl, <- append_assoc. by apply TrimRight_snoc.
Qed.

Lemma TrimSpace_idemp (s : string) :
  strings.TrimSpace (strings.TrimSpace s) = strings.TrimSpace s.
Proof.
  destruct (TrimSpace_trimmed s) as [Hl Hr].
  unfold strings.TrimSpace at 1. by rewrite Hl, Hr.
Qed.

Lemma Exec_stderr_trimmed t w :
  strings.TrimSpace (stderr t) = stderr t →
  strings.TrimSpace (stderr (Exec t w).1) = stderr (Exec t w).1.
Proof.
  intros Ht. destruct (Exec_cases t w) as [(_ & _ & ->)|(Hopen & _)]; [done|].
  rewrite (Exec_runs t w Hopen). simpl.
  destruct (DeadlineExceeded _);
    [apply timed_out_message_trimmed | apply TrimSpace_idemp].
Qed.

End Exec_more.

(** X6.  A run replaces all three results: what [Exec] leaves in a
    handle that passes the guard depends on the configuration and on
    the run only, and on nothing that an earlier run had stored. *)
Theorem Exec_forgets_earlier_results `{OS} (t1 t2 : Ts) (w : World) :
  Cfg t1 = Cfg t2 →
  ExitCode t1 = 0 ∨ ExitCode t1 = -1 →
  ExitCode t2 = 0 ∨ ExitCode t2 = -1 →
  Exec t1 w = Exec t2 w.
Proof.
  intros HCfg H1 H2. rewrite (Exec_runs t1 w H1), (Exec_runs t2 w H2).
  unfold Exec_command. by rewrite HCfg.
Qed.

Lemma Exec_forgets_earlier_results_witness :
  @Exec (scripted three_lines) (run_once killed_at_deadline "printf").1 []
  = run_once three_lines "printf".
Proof.
  apply (@Exec_forgets_earlier_results (scripted three_lines)).
  - reflexivity.
  - right. reflexivity.
  - left. reflexivity.
Defined.

(** X7.  A recorded failure is final: once [exitCode] is neither 0 nor
    -1, no sequence of [Exec] and [SetEnv] calls starts a process or
    changes [stdout], [stderr] or [exitCode]. *)
Theorem failure_is_final `{OS} (cs : list call) (t : Ts) (w : World) :
  ExitCode t ≠ 0 → ExitCode t ≠ -1 →
  let s := do_calls cs (t, w) in
  s.2 = w ∧ Stdout s.1 = Stdout t ∧ Stderr s.1 = Stderr t ∧
  ExitCode s.1 = ExitCode t.
Proof.
  revert t. induction cs as [|c cs IH]; intros t H0 H1; [done|].
  unfold do_calls. cbn [foldl]. fold (do_calls cs (do_call c (t, w))).
  destruct c as [|range envVars]; simpl.
  - rewrite Exec_blocked by done. by apply IH.
  - apply (IH (SetEnv range envVars t)); done.
Qed.

Lemma failure_is_final_witness :
  (@do_calls (scripted three_lines)
     [call_Exec; call_SetEnv [("A", "1")] {["A" := "1"]}; call_Exec]
     ((run_once exit_status_3 "exit 3").1, [])).2 = [] ∧
  ExitCode (@do_calls (scripted three_lines)
     [call_Exec; call_SetEnv [("A", "1")] {["A" := "1"]}; call_Exec]
     ((run_once exit_status_3 "exit 3").1, [])).1 = 3.
Proof.
  destruct (@failure_is_final (scripted three_lines)
              [call_Exec; call_SetEnv [("A", "1")] {["A" := "1"]}; call_Exec]
              (run_once exit_status_3 "exit 3").1 [])
    as (Hw & _ & _ & Hc); [vm_compute; discriminate..|].
  split; [exact Hw | exact Hc].
Defined.

(** X8.  Whatever is called on a handle, its command text, shell and
    timeout stay as [New] left them, the log of processes only grows,
    and every process started meanwhile was given the command text on
    its input, the timeout, and the configured shell when it is on the
    path and [sh] otherwise. *)
Theorem calls_keep_command `{OS} (cs : list call) (t : Ts) (w : World) :
  let s := do_calls cs (t, w) in
  Cmd (Cfg s.1) = Cmd (Cfg t) ∧ Shell (Cfg s.1) = Shell (Cfg t) ∧
  Timeout (Cfg s.1) = Timeout (Cfg t) ∧
  ∃ started, s.2 = started ++ w ∧
    Forall (λ c, cmd_Stdin c = Cmd (Cfg t) ∧
                 cmd_Timeout c = Timeout (Cfg t) ∧
                 cmd_Path c = if LookPath (Shell (Cfg t))
                              then Shell (Cfg t) else "sh") started.
Proof.
  revert t w. induction cs as [|c cs IH]; intros t w.
  { simpl. do 3 (split; [done|]). by exists []. }
  unfold do_calls. cbn [foldl]. fold (do_calls cs (do_call c (t, w))).
  destruct (do_call_fixed_config c t w) as (HC & HS & HT).
  destruct (do_call c (t, w)) as [t1 w1] eqn:E. simpl in HC, HS, HT.
  destruct (IH t1 w1) as (HC' & HS' & HT' & started & Hw & Hall).
  rewrite HC, HS, HT in *. do 3 (split; [done|]).
  destruct c as [|range envVars]; simpl in E.
  - destruct (Exec_cases t w) as [(_ & _ & Hsame)|(_ & _ & Hrun)].
    + rewrite Hsame in E. injection E as <- <-. by exists started.
    + rewrite E in Hrun. simpl in Hrun. subst w1.
      exists (started ++ [Exec_command t]). split.
      * by rewrite <- app_assoc.
      * apply Forall_app. split; [done|]. by repeat constructor.
  - injection E as <- <-. by exists started.
Qed.

(** X9.  Both outputs of a handle are always trimmed: after any calls,
    [Stdout] and [Stderr] have no white space at either end. *)
Theorem reachable_outputs_trimmed `{OS} (t : Ts) (w : World) :
  reachable t w →
  strings.TrimSpace (Stdout t) = Stdout t ∧
  strings.TrimSpace (Stderr t) = Stderr t.
Proof.
  intros Hreach. split; [by apply (reachable_stdout_trimmed t w)|].
  induction Hreach as [cmdStr config|t w envVars range _ IH _|t w _ IH].
  - done.
  - exact IH.
  - by apply Exec_stderr_trimmed.
Qed.

Lemma reachable_outputs_trimmed_witness :
  strings.TrimSpace (Stderr (run_once killed_at_deadline "sleep 100").1)
  = Stderr (run_once killed_at_deadline "sleep 100").1.
Proof.
  refine (proj2 (@reachable_outputs_trimmed (scripted killed_at_deadline)
                   (run_once killed_at_deadline "sleep 100").1
                   (run_once killed_at_deadline "sleep 100").2 _)).
  apply (@reach_Exec (scripted killed_at_deadline)), reach_New.
Defined.



(** ** More on the parsing helpers *)

Section parsing_more.
Implicit Types (t : Ts) (s line : string) (expectedLen : Z).

Lemma Split_length s sep :
  length (strings.Split s sep) = S (strings.Count sep s).
Proof.
  induction s as [|c s IH]; [done|]. rewrite Split_cons. simpl.
  destruct (Ascii.eqb c sep); simpl; [by rewrite IH|].
  by destruct (strings.Split s sep).
Qed.

Lemma all_bytes_app P (a b : string) :
  all_bytes P (a +:+ b) = all_bytes P a && all_bytes P b.
Proof.
  induction a as [|c a IH]; simpl; [done|]. by rewrite IH, andb_assoc.
Qed.

Lemma fieldsFrom_tokens tok s :
  (∀ w, tok = Some w → is_token w) →
  Forall is_token (strings.fieldsFrom tok s).
Proof.
  revert tok. induction s as [|c s IH]; intros tok Htok; simpl.
  - destruct tok as [w|]; [|done]. constructor; [by apply Htok | done].
  - destruct (strings.isSpace c) eqn:Ec.
    + destruct tok as [w|]; [constructor; [by apply Htok|]|]; by apply IH.
    + apply IH. intros w [= <-]. split; [apply append_not_nil|].
      rewrite all_bytes_app. simpl. rewrite Ec. simpl.
      destruct tok as [w|]; [|done]. rewrite andb_true_r.
      by destruct (Htok w eq_refl).
Qed.

Lemma Fields_tokens s : Forall is_token (strings.Fields s).
Proof. by apply fieldsFrom_tokens. Qed.






Lemma empty_stdout_no_rows t expectedLen :
  Stdout t = "" →
  Fields t expectedLen = Ok [] ∧ ToMap t expectedLen = Ok ∅.
Proof. intros Hs. unfold ToMap, Fields, Lines. rewrite Hs. done. Qed.

End parsing_more.

(** X11.  On a non-empty [Stdout], [Lines] returns one element more
    than there are line feeds in it (and never an empty sequence). *)
Theorem Lines_count (t : Ts) :
  Stdout t ≠ "" →
  length (Lines t) = S (strings.Count LF (Stdout t)).
Proof.
  intros Hne. unfold Lines. destruct (decide _); [done|].
  apply Split_length.
Qed.

Lemma Lines_count_witness :
  length (Lines (handle_printing ("a" +:+ nl +:+ nl +:+ "b"))) = 3%nat.
Proof.
  rewrite Lines_count by (vm_compute; discriminate). reflexivity.
Defined.

(** X12.  On an empty [Stdout] nothing faults, not even with a negative
    [expectedLen]: [Fields] returns no row and [ToMap] the empty map. *)
Theorem Fields_of_empty_stdout (t : Ts) (expectedLen : Z) :
  Stdout t = "" →
  Fields t expectedLen = Ok [] ∧ ToMap t expectedLen = Ok ∅.
Proof. apply empty_stdout_no_rows. Qed.

Lemma Fields_of_empty_stdout_witness :
  Fields (handle_printing "") (-5) = Ok [] ∧
  ToMap (handle_printing "") (-5) = Ok ∅.
Proof. apply Fields_of_empty_stdout. reflexivity. Defined.

(** X13.  With [expectedLen = 0] every row of [Fields] is empty and
    [ToMap] skips them all: it returns the empty map, whatever
    [Stdout] holds. *)
Theorem ToMap_zero (t : Ts) :
  Fields t 0 = Ok (replicate (length (Lines t)) []) ∧ ToMap t 0 = Ok ∅.
Proof.
  assert (HF : Fields t 0 = Ok (replicate (length (Lines t)) [])).
  { rewrite Fields_Ok by done. f_equal.
    induction (Lines t) as [|line lines IH]; [done|].
    rewrite fmap_cons, IH. done. }
  split; [exact HF|]. unfold ToMap. rewrite HF. simpl. f_equal. clear HF.
  induction (length (Lines t)) as [|n IH]; [done|]. exact IH.
Qed.



(** X15.  Every entry of a row of [Fields] is either a token (not
    empty, no white space in it) or the empty string used as padding. *)
Theorem Fields_entries (t : Ts) (expectedLen : Z) (rows : list (list string)) :
  Fields t expectedLen = Ok rows →
  ∀ row x, row ∈ rows → x ∈ row → x = "" ∨ is_token x.
Proof.
  intros HF row x Hrow Hx.
  destruct (decide (0 ≤ expectedLen)) as [Hn|Hn].
  - rewrite Fields_Ok in HF by done. injection HF as <-.
    apply list_elem_of_fmap in Hrow as (line & -> & _). simpl in Hx.
    unfold fit in Hx. apply elem_of_app in Hx as [Hx|Hx].
    + right. pose proof (Fields_tokens line) as Htok.
      rewrite Forall_forall in Htok. apply Htok.
      apply elem_of_take in Hx as (i & Hi & _).
      by apply list_elem_of_lookup_2 in Hi.
    + left. by apply elem_of_replicate_inv in Hx.
  - destruct (decide (Stdout t = "")) as [Hs|Hs].
    + rewrite (proj1 (empty_stdout_no_rows t expectedLen Hs)) in HF.
      injection HF as <-. by apply elem_of_nil in Hrow.
    + rewrite Fields_Panic in HF by (done || lia). done.
Qed.

Lemma Fields_entries_witness :
  Fields (handle_printing ("a  b" +:+ nl +:+ "x")) 3
  = Ok [["a"; "b"; ""]; ["x"; ""; ""]] ∧
  ("b" = "" ∨ is_token "b").
Proof.
  split; [reflexivity|].
  apply (Fields_entries (handle_printing ("a  b" +:+ nl +:+ "x")) 3
           [["a"; "b"; ""]; ["x"; ""; ""]] eq_refl ["a"; "b"; ""] "b").
  - apply list_elem_of_here.
  - apply list_elem_of_further, list_elem_of_here.
Defined.

Section ToMap_more.
Implicit Types (t : Ts) (rows : list (list string))
  (data : gmap string (list string)).




End ToMap_more.





(** ** [Show] *)

(** X18.  [Show] tells exactly the five things it lists: two handles
    have the same [Show] if and only if they agree on [stdout],
    [stderr], [exitCode], the environment and the command text; the
    shell and the timeout are not shown. *)
Theorem Show_same (t1 t2 : Ts) :
  Show t1 = Show t2 ↔
  Stdout t1 = Stdout t2 ∧ Stderr t1 = Stderr t2 ∧
  ExitCode t1 = ExitCode t2 ∧ GetEnv t1 = GetEnv t2 ∧
  Cmd (Cfg t1) = Cmd (Cfg t2).
Proof.
  unfold Stdout, Stderr, ExitCode, GetEnv. split.
  - intros HS.
    assert (H1 := f_equal (λ m, m !! "stdout") HS).
    assert (H2 := f_equal (λ m, m !! "stderr") HS).
    assert (H3 := f_equal (λ m, m !! "exitCode") HS).
    assert (H4 := f_equal (λ m, m !! "envVars") HS).
    assert (H5 := f_equal (λ m, m !! "cmdStr") HS).
    unfold Show in H1, H2, H3, H4, H5. simpl in *.
    simplify_map_eq. done.
  - intros (Ho & He & Hc & Hv & Hm). unfold Show.
    by rewrite Ho, He, Hc, Hv, Hm.
Qed.

(** ** Sharing *)

Section store_facts.
Context `{os : OS}.
Implicit Types (st : Store) (h : TsObj) (t : Ts) (a p : loc)
  (l env : list string).

Lemma alloc_fresh l st : arrays st !! (alloc l st).1 = None.
Proof. simpl. apply not_elem_of_dom, is_fresh. Qed.

Lemma alloc_configs l st : configs (alloc l st).2 = configs st.
Proof. done. Qed.

Lemma alloc_lookup l st : arrays (alloc l st).2 !! (alloc l st).1 = Some l.
Proof. simpl. apply lookup_insert_eq. Qed.

Lemma alloc_lookup_old l st a env :
  arrays st !! a = Some env → arrays (alloc l st).2 !! a = Some env.
Proof.
  intros Ha. simpl. rewrite lookup_insert_ne; [done|].
  intros <-. pose proof (alloc_fresh l st) as Hf. simpl in Hf. congruence.
Qed.

Lemma view_Some st h t :
  view st h = Some t ↔
  ∃ c env, configs st !! pCfg h = Some c ∧ arrays st !! oEnv c = Some env ∧
           t = mkTs (mkConfig (oCmd c) (oShell c) (oTimeout c) env)
                    (pstdout h) (pstderr h) (pexitCode h).
Proof.
  unfold view. split.
  - destruct (configs st !! pCfg h) as [c|] eqn:Hc; [|done]. simpl.
    destruct (arrays st !! oEnv c) as [env|] eqn:Henv; [|done]. simpl.
    intros [= <-]. by exists c, env.
  - intros (c & env & -> & Henv & ->). simpl. by rewrite Henv.
Qed.

Lemma view_alloc l st h t :
  view st h = Some t → view (alloc l st).2 h = Some t.
Proof.
  rewrite !view_Some. intros (c & env & Hc & Henv & ->).
  exists c, env. split; [done|]. split; [|done]. by apply alloc_lookup_old.
Qed.

(** What [SetEnvP] does to the store. *)
Lemma SetEnvP_Some range (envVars : gmap string string) h st t :
  view st h = Some t →
  ∃ c, configs st !! pCfg h = Some c ∧
       let new := GetEnv (SetEnv range envVars t) in
       SetEnvP range envVars h st
       = Some (h, mkStore
                    (<[pCfg h := mkConfigObj (oCmd c) (oShell c) (oTimeout c)
                                             (alloc new st).1]> (configs st))
                    (arrays (alloc new st).2)).
Proof.
  intros Hview. pose proof Hview as (c & env & Hc & Henv & ->)%view_Some.
  exists c. split; [done|]. unfold SetEnvP. rewrite Hview. simpl.
  rewrite Hc. done.
Qed.

End store_facts.

(** The store and the plain model agree on a single handle:
    [SetEnv] through the store leaves the handle looking as the plain
    [SetEnv] says, and [New] with a configuration object, or with
    none, makes the handle that the plain [New] makes. *)
Lemma store_agrees `{OS} (st : Store) :
  (∀ range (envVars : gmap string string) h t,
     view st h = Some t →
     ∃ st', SetEnvP range envVars h st = Some (h, st') ∧
            view st' h = Some (SetEnv range envVars t)) ∧
  (∀ cmdStr p c env,
     configs st !! p = Some c → arrays st !! oEnv c = Some env →
     ∃ h st', NewP cmdStr (Some p) st = Some (h, st') ∧
              view st' h
              = Some (New cmdStr
                        (Some (mkConfig (oCmd c) (oShell c) (oTimeout c) env)))) ∧
  (∀ cmdStr,
     ∃ h st', NewP cmdStr None st = Some (h, st') ∧
              view st' h = Some (New cmdStr None)).
Proof.
  split; [|split].
  - intros range envVars h t Hview.
    destruct (SetEnvP_Some range envVars h st t Hview) as (c & Hc & HS).
    eexists. split; [exact HS|]. apply view_Some. eexists _, _.
    simpl. rewrite lookup_insert_eq. split; [done|]. simpl.
    rewrite lookup_insert_eq. split; [done|].
    apply view_Some in Hview as (c' & env & Hc' & Henv & ->).
    assert (c' = c) as -> by congruence. done.
  - intros cmdStr p c env Hc Henv. unfold NewP. rewrite Hc. simpl.
    eexists _, _. split; [done|]. apply view_Some. unfold New. simpl.
    destruct (decide (oCmd c = "")) as [Hcmd|Hcmd]; simpl.
    + eexists _, env. rewrite lookup_insert_eq. simpl. done.
    + exists c, env. done.
  - intros cmdStr. unfold NewP, NewConfigP.
    set (st1 := (alloc Environ st).2). set (a := (alloc Environ st).1).
    simpl. fold a. fold st1. rewrite lookup_insert_eq. simpl.
    eexists _, _. split; [done|]. apply view_Some. eexists _, Environ.
    simpl. rewrite lookup_insert_eq. simpl. split; [done|].
    split; [|done]. apply lookup_insert_eq.
Qed.

Lemma store_agrees_witness :
  ∃ st', SetEnvP [("A", "9")] {["A" := "9"]} (mkTsObj 0%nat "" "" 0)
                 (store_with "env" ["A=1"; "B=2"])
         = Some (mkTsObj 0%nat "" "" 0, st') ∧
         view st' (mkTsObj 0%nat "" "" 0)
         = Some (SetEnv [("A", "9")] {["A" := "9"]} (handle_with ["A=1"; "B=2"])).
Proof.
  apply (proj1 (@store_agrees (scripted three_lines)
                  (store_with "env" ["A=1"; "B=2"]))).
  reflexivity.
Defined.

(** X19.  [New] writes the command text into the configuration object
    it is given when that has none, so a second [New] with the same
    object keeps the first command text: both handles share the object
    and run the first text, and the second text is dropped. *)
Theorem New_shares_config `{OS} (st : Store) (p : loc) (c : ConfigObj)
    (env : list string) (cmd1 cmd2 : string) :
  configs st !! p = Some c → arrays st !! oEnv c = Some env →
  oCmd c = "" → cmd1 ≠ "" →
  ∃ h1 st1 h2 st2,
    NewP cmd1 (Some p) st = Some (h1, st1) ∧
    NewP cmd2 (Some p) st1 = Some (h2, st2) ∧
    pCfg h1 = p ∧ pCfg h2 = p ∧
    Cmd ∘ Cfg <$> view st2 h1 = Some cmd1 ∧
    Cmd ∘ Cfg <$> view st2 h2 = Some cmd1.
Proof.
  intros Hc Henv Hempty Hcmd1. unfold NewP. rewrite Hc. simpl.
  rewrite decide_True by done. simpl.
  do 4 eexists. split; [reflexivity|]. simpl.
  rewrite lookup_insert_eq. simpl. rewrite decide_False by done.
  do 3 (split; [reflexivity|]).
  unfold view. simpl. rewrite lookup_insert_eq. simpl. rewrite Henv. done.
Qed.

Lemma New_shares_config_witness :
  ∃ h1 st1 h2 st2,
    @NewP (scripted three_lines) "ls" (Some 0%nat) (store_with "" ["A=1"])
    = Some (h1, st1) ∧
    @NewP (scripted three_lines) "pwd" (Some 0%nat) st1 = Some (h2, st2) ∧
    pCfg h1 = 0%nat ∧ pCfg h2 = 0%nat ∧
    Cmd ∘ Cfg <$> view st2 h1 = Some "ls" ∧
    Cmd ∘ Cfg <$> view st2 h2 = Some "ls".
Proof.
  apply (@New_shares_config (scripted three_lines) (store_with "" ["A=1"])
           0%nat (mkConfigObj "" "bash" (60 * time.Second) 0%nat) ["A=1"]);
    [reflexivity | reflexivity | reflexivity | discriminate].
Defined.

(** X20.  [SetEnv] changes the shared configuration object: a handle
    that shares it sees the new environment, a handle with another
    configuration object sees no change. *)
Theorem SetEnv_reaches_sharers (st : Store) (range : list (string * string))
    (envVars : gmap string string) (h1 h2 : TsObj) (t1 t2 : Ts) :
  view st h1 = Some t1 → view st h2 = Some t2 →
  ∃ st', SetEnvP range envVars h1 st = Some (h1, st') ∧
         (pCfg h2 = pCfg h1 →
          env_of st' h2 = Some (GetEnv (SetEnv range envVars t1))) ∧
         (pCfg h2 ≠ pCfg h1 → view st' h2 = Some t2).
Proof.
  intros Hv1 Hv2.
  destruct (SetEnvP_Some range envVars h1 st t1 Hv1) as (c & Hc & HS).
  eexists. split; [exact HS|]. split.
  - intros Heq. unfold env_of, view. simpl. rewrite Heq, lookup_insert_eq.
    simpl. rewrite lookup_insert_eq. done.
  - intros Hne. apply view_Some in Hv2 as (c2 & env2 & Hc2 & Henv2 & ->).
    apply view_Some. exists c2, env2. simpl.
    rewrite lookup_insert_ne by done. split; [done|]. split; [|done].
    by apply (alloc_lookup_old _ st).
Qed.

Lemma SetEnv_reaches_sharers_witness :
  ∃ st', SetEnvP [("A", "9")] {["A" := "9"]} (mkTsObj 0%nat "" "" 0)
                 (store_with "env" ["A=1"; "B=2"])
         = Some (mkTsObj 0%nat "" "" 0, st') ∧
         env_of st' (mkTsObj 0%nat "out" "" 3) = Some ["B=2"; "A=9"].
Proof.
  destruct (SetEnv_reaches_sharers (store_with "env" ["A=1"; "B=2"])
              [("A", "9")] {["A" := "9"]}
              (mkTsObj 0%nat "" "" 0) (mkTsObj 0%nat "out" "" 3)
              _ _ eq_refl eq_refl) as (st' & HS & Hshare & _).
  exists st'. split; [exact HS|]. exact (Hshare eq_refl).
Defined.

(** X21.  [GetEnv] returns a copy: the new slice holds the entries of
    the environment, and no assignment through it changes what the
    handle has. *)
Theorem GetEnv_is_a_copy (st : Store) (h : TsObj) (t : Ts) :
  view st h = Some t →
  ∃ a st1,
    GetEnvP h st = Some (a, st1) ∧
    arrays st1 !! a = Some (GetEnv t) ∧
    view st1 h = Some t ∧
    ∀ i x st2, store_index a i x st1 = Some st2 → view st2 h = Some t.
Proof.
  intros Hview. unfold GetEnvP. rewrite Hview. simpl.
  eexists _, _. split; [done|]. split; [apply lookup_insert_eq|].
  pose proof (view_alloc (GetEnv t) st h t Hview) as Hview1.
  split; [exact Hview1|]. intros i x st2. unfold store_index. simpl.
  rewrite lookup_insert_eq. simpl.
  destruct (decide (i < length (GetEnv t))%nat); [|done]. intros [= <-].
  apply view_Some in Hview as (c & env & Hc & Henv & ->).
  apply view_Some. exists c, env. simpl. split; [done|]. split; [|done].
  rewrite lookup_insert_ne.
  - by apply (alloc_lookup_old _ st).
  - intros Heq. pose proof (is_fresh (dom (arrays st))) as Hf.
    rewrite Heq in Hf. apply Hf, elem_of_dom. by eexists.
Qed.

Lemma GetEnv_is_a_copy_witness :
  ∃ a st1,
    GetEnvP (mkTsObj 0%nat "" "" 0) (store_with "env" ["A=1"; "B=2"])
    = Some (a, st1) ∧
    arrays st1 !! a = Some ["A=1"; "B=2"].
Proof.
  destruct (GetEnv_is_a_copy (store_with "env" ["A=1"; "B=2"])
              (mkTsObj 0%nat "" "" 0) _ eq_refl) as (a & st1 & HG & Ha & _).
  exists a, st1. split; [exact HG | exact Ha].
Defined.

(** X22.  [Show] hands out the slice of the handle itself: an
    assignment through the value under ["envVars"] changes the
    environment of the handle. *)
Theorem Show_shares_environment (st : Store) (h : TsObj) (t : Ts)
    (i : nat) (x : string) :
  view st h = Some t → (i < length (GetEnv t))%nat →
  ∃ a st2,
    Show_envVars h st = Some a ∧
    arrays st !! a = Some (GetEnv t) ∧
    store_index a i x st = Some st2 ∧
    env_of st2 h = Some (<[i := x]> (GetEnv t)).
Proof.
  intros (c & env & Hc & Henv & ->)%view_Some Hi. simpl in Hi.
  do 2 eexists. unfold Show_envVars. rewrite Hc. simpl.
  split; [reflexivity|]. split; [exact Henv|].
  unfold store_index. rewrite Henv. simpl. rewrite decide_True by done.
  split; [reflexivity|]. unfold env_of, view. simpl. rewrite Hc. simpl.
  rewrite lookup_insert_eq. done.
Qed.

Lemma Show_shares_environment_witness :
  ∃ a st2,
    Show_envVars (mkTsObj 0%nat "" "" 0) (store_with "env" ["A=1"; "B=2"])
    = Some a ∧
    store_index a 1 "X=0" (store_with "env" ["A=1"; "B=2"]) = Some st2 ∧
    env_of st2 (mkTsObj 0%nat "" "" 0) = Some ["A=1"; "X=0"].
Proof.
  destruct (Show_shares_environment (store_with "env" ["A=1"; "B=2"])
              (mkTsObj 0%nat "" "" 0) _ 1 "X=0" eq_refl)
    as (a & st2 & Ha & _ & Hs & He); [simpl; lia|].
  exists a, st2. split; [exact Ha|]. split; [exact Hs | exact He].
Defined.

(** ** Calls in a row *)





